(** * BBLCache: the basic-block cache of lab1/ex_2/MyPinTool.cpp

    A shallow embedding of the class [BBLCache] and of the analysis routine
    [CountBbl], followed by the properties of the hit/miss accounting and of
    the insertion-order eviction.

    Conventions.
    - A [BBL*] is the address it holds, a [Z]; the code only compares
      pointers for equality.
    - [UINT64] and [UINT32] values are [Z] with the wrap-around written out.
    - [std::deque<BBL*>] is a [list], front of the deque at the head. *)

From Stdlib Require Import ZArith List Bool Lia.
From Stdlib Require String.
Import ListNotations.
Import String.StringSyntax.
Delimit Scope string_scope with string.

Local Open Scope Z_scope.

(** ** Machine integers *)

Module Word.

Definition UINT32_MAX : Z := 4294967295.

(** Conversion of an integer to [UINT32], as done when the [INT32] knob
    value is passed to the constructor's [UINT32] parameter. *)
Definition to_UINT32 (z : Z) : Z := z mod 2 ^ 32.

(** [x++] on a [UINT64]. *)
Definition incr64 (x : Z) : Z := (x + 1) mod 2 ^ 64.

(** [x + y] on [UINT64] operands. *)
Definition add64 (x y : Z) : Z := (x + y) mod 2 ^ 64.

(** Range of an [INT32]. *)
Definition is_INT32 (z : Z) : Prop := - 2 ^ 31 <= z < 2 ^ 31.

Definition is_UINT32 (z : Z) : Prop := 0 <= z < 2 ^ 32.

Definition is_UINT64 (z : Z) : Prop := 0 <= z < 2 ^ 64.

End Word.

Import Word.

(** ** The deque operations the class uses *)

Definition BBL_ptr : Type := Z.

Module Deque.

Definition t : Type := list BBL_ptr.

Definition size (d : t) : Z := Z.of_nat (length d).

Definition push_front (x : BBL_ptr) (d : t) : t := x :: d.

(** [pop_back] removes the last element.  On an empty deque the C++
    operation is undefined; [push] only calls it right after a
    [push_front] (see [pop_only_on_nonempty]). *)
Definition pop_back (d : t) : t := removelast d.

End Deque.

(** ** class BBLCache *)

Record BBLCache : Type := mkBBLCache {
  blockCache : Deque.t;
  _max_size : Z;
  bblCount : Z;
  nMisses : Z;
  nHits : Z
}.

Definition set_blockCache (c : BBLCache) (d : Deque.t) : BBLCache :=
  mkBBLCache d (_max_size c) (bblCount c) (nMisses c) (nHits c).

Definition set_bblCount (c : BBLCache) (v : Z) : BBLCache :=
  mkBBLCache (blockCache c) (_max_size c) v (nMisses c) (nHits c).

Definition set_nMisses (c : BBLCache) (v : Z) : BBLCache :=
  mkBBLCache (blockCache c) (_max_size c) (bblCount c) v (nHits c).

Definition set_nHits (c : BBLCache) (v : Z) : BBLCache :=
  mkBBLCache (blockCache c) (_max_size c) (bblCount c) (nMisses c) v.

(** [BBLCache(UINT32 max_size)]: empty deque, counters at their default 0. *)
Definition BBLCache_new (max_size : Z) : BBLCache :=
  mkBBLCache [] max_size 0 0 0.

(** [cache = new BBLCache(KnobSizeN.Value())] in [main]: the knob is an
    [INT32], the parameter a [UINT32]. *)
Definition main_cache (KnobSizeN : Z) : BBLCache :=
  BBLCache_new (to_UINT32 KnobSizeN).

Definition pop (c : BBLCache) : BBLCache :=
  set_blockCache c (Deque.pop_back (blockCache c)).

Definition get_size (c : BBLCache) : Z := Deque.size (blockCache c).

(** The range-for loop of [push]: on the first block equal to [bbl] it
    counts a hit, sets [present] and breaks.  Returns the cache and
    [present]. *)
Fixpoint scan (bbl : BBL_ptr) (blocks : Deque.t) (c : BBLCache)
  : BBLCache * bool :=
  match blocks with
  | [] => (c, false)
  | block :: rest =>
      if bbl =? block
      then (set_nHits c (incr64 (nHits c)), true)
      else scan bbl rest c
  end.

Definition push (c : BBLCache) (bbl : BBL_ptr) : BBLCache :=
  let '(c1, present) := scan bbl (blockCache c) c in
  if negb present then
    let c2 := set_nMisses c1 (incr64 (nMisses c1)) in
    let c3 := set_blockCache c2 (Deque.push_front bbl (blockCache c2)) in
    if get_size c3 >? _max_size c3 then pop c3 else c3
  else c1.

(** The cache inside [push] on the miss branch, after [nMisses++] and
    [blockCache.push_front(bbl)] and before the overflow test. *)
Definition insert_on_miss (c : BBLCache) (bbl : BBL_ptr) : BBLCache :=
  let c2 := set_nMisses c (incr64 (nMisses c)) in
  set_blockCache c2 (Deque.push_front bbl (blockCache c2)).

(** [VOID CountBbl(BBL* bbl_addr)], on the global [cache]. *)
Definition CountBbl (c : BBLCache) (bbl_addr : BBL_ptr) : BBLCache :=
  push (set_bblCount c (incr64 (bblCount c))) bbl_addr.

(** ** Runs: the analysis routine called once per executed block *)

Definition run (c : BBLCache) (ids : list BBL_ptr) : BBLCache :=
  fold_left CountBbl ids c.

(** The cache as it is after each call, in order. *)
Fixpoint trace (c : BBLCache) (ids : list BBL_ptr) : list BBLCache :=
  match ids with
  | [] => []
  | id :: rest => let c' := CountBbl c id in c' :: trace c' rest
  end.

(** What the overflow test of [push] does to the deque after [push_front]. *)
Definition evict_overflow (max_size : Z) (d : Deque.t) : Deque.t :=
  if Deque.size d >? max_size then Deque.pop_back d else d.

(** [k] pairwise distinct block addresses, [1 .. k]. *)
Definition distinct_ids (k : nat) : list BBL_ptr := map Z.of_nat (seq 1 k).

(** ** Predicates on caches *)

(** How one call moves the two outcome counters. *)
Definition counts_hit (c c' : BBLCache) : Prop :=
  nHits c' = incr64 (nHits c) /\ nMisses c' = nMisses c.

Definition counts_miss (c c' : BBLCache) : Prop :=
  nHits c' = nHits c /\ nMisses c' = incr64 (nMisses c).

(** The accounting identity, with the sum taken as the code would take it
    (on [UINT64]) and on the integers. *)
Definition counters_agree (s : BBLCache) : Prop :=
  add64 (nHits s) (nMisses s) = bblCount s.

Definition counters_agree_exact (s : BBLCache) : Prop :=
  nHits s + nMisses s = bblCount s.

(** The state of a cache of capacity 0 between calls. *)
Definition always_empty (s : BBLCache) : Prop :=
  _max_size s = 0 /\ blockCache s = [] /\ nHits s = 0.

(** ** Observers of a run *)

(** The identifiers whose call took the miss branch of [push], in call
    order. *)
Fixpoint missed (c : BBLCache) (ids : list BBL_ptr) : list BBL_ptr :=
  match ids with
  | [] => []
  | id :: rest =>
      let c' := CountBbl c id in
      if snd (scan id (blockCache c) c)
      then missed c' rest
      else id :: missed c' rest
  end.

(** Two caches that [push] cannot tell apart as far as the deque goes. *)
Definition same_entries (c1 c2 : BBLCache) : Prop :=
  blockCache c1 = blockCache c2 /\ _max_size c1 = _max_size c2.

(** A cache whose deque fits its capacity. *)
Definition fits (c : BBLCache) : Prop :=
  0 <= _max_size c /\ get_size c <= _max_size c.

(** ** Fini: the report written to [*out] *)

(** What is inserted in the stream: a string literal, a counter or [endl]. *)
Inductive out_item : Type :=
| Text (s : String.string)
| Count (v : Z)
| Endl.

Definition banner : String.string :=
  "==============================================="%string.

(** [VOID Fini(INT32 code, VOID *v)]: neither argument is used. *)
Definition Fini (c : BBLCache) : list out_item :=
  [ Text banner; Endl;
    Text "MyPinTool analysis results: "%string; Endl;
    Text "Number of basic blocks: "%string; Count (bblCount c); Endl;
    Text "Number of basic block hits: "%string; Count (nHits c); Endl;
    Text "Number of basic block misses: "%string; Count (nMisses c); Endl;
    Text "Size of cache: "%string; Count (get_size c); Endl;
    Text banner; Endl ].

(** The numbers of a report, in the order they are written. *)
Fixpoint report_numbers (items : list out_item) : list Z :=
  match items with
  | [] => []
  | Count v :: rest => v :: report_numbers rest
  | _ :: rest => report_numbers rest
  end.

(** ** Small sanity checks *)

Example run_ABAC :
  blockCache (run (BBLCache_new 2) [10; 20; 10; 30]) = [30; 20].
Proof. reflexivity. Qed.

Example run_default_knob : _max_size (main_cache 50) = 50.
Proof. reflexivity. Qed.

Example run_minus_one_knob : _max_size (main_cache (-1)) = UINT32_MAX.
Proof. reflexivity. Qed.

(** ** Arithmetic of the counters *)

Lemma incr64_range x : is_UINT64 (incr64 x).
Proof. unfold is_UINT64, incr64. apply Z.mod_pos_bound. lia. Qed.

Lemma incr64_small x : 0 <= x < 2 ^ 64 - 1 -> incr64 x = x + 1.
Proof. intros H. unfold incr64. apply Z.mod_small. lia. Qed.

Lemma add64_incr64_l x y : add64 (incr64 x) y = incr64 (add64 x y).
Proof.
  unfold add64, incr64.
  rewrite Zplus_mod_idemp_l, Zplus_mod_idemp_l. f_equal. lia.
Qed.

Lemma add64_incr64_r x y : add64 x (incr64 y) = incr64 (add64 x y).
Proof.
  unfold add64, incr64.
  rewrite Zplus_mod_idemp_r, Zplus_mod_idemp_l. f_equal. lia.
Qed.

Lemma to_UINT32_range z : is_UINT32 (to_UINT32 z).
Proof. unfold is_UINT32, to_UINT32. apply Z.mod_pos_bound. lia. Qed.

Lemma to_UINT32_negative n :
  - 2 ^ 31 <= n < 0 -> to_UINT32 n = n + 2 ^ 32.
Proof.
  intros H. unfold to_UINT32.
  symmetry. apply (Z.mod_unique_pos n (2 ^ 32) (-1)); lia.
Qed.

(** ** The membership loop *)

Lemma scan_present bbl blocks c :
  In bbl blocks -> scan bbl blocks c = (set_nHits c (incr64 (nHits c)), true).
Proof.
  induction blocks as [|block rest IH]; simpl; [tauto|].
  intros [->|Hin].
  - now rewrite Z.eqb_refl.
  - destruct (bbl =? block); auto.
Qed.

Lemma scan_absent bbl blocks c :
  ~ In bbl blocks -> scan bbl blocks c = (c, false).
Proof.
  induction blocks as [|block rest IH]; simpl; [reflexivity|].
  intros Hn. destruct (Z.eqb_spec bbl block) as [->|_].
  - exfalso. apply Hn. now left.
  - apply IH. intros Hin. apply Hn. now right.
Qed.

Lemma In_dec_ptr (bbl : BBL_ptr) (blocks : Deque.t) :
  {In bbl blocks} + {~ In bbl blocks}.
Proof. apply in_dec. exact Z.eq_dec. Qed.

(** ** One call of [push] and of [CountBbl] *)

Lemma push_hit c bbl :
  In bbl (blockCache c) -> push c bbl = set_nHits c (incr64 (nHits c)).
Proof. intros Hin. unfold push. now rewrite scan_present. Qed.

Lemma push_miss c bbl :
  ~ In bbl (blockCache c) ->
  push c bbl =
  mkBBLCache (evict_overflow (_max_size c) (Deque.push_front bbl (blockCache c)))
             (_max_size c) (bblCount c) (incr64 (nMisses c)) (nHits c).
Proof.
  intros Hn. unfold push. rewrite scan_absent by assumption.
  cbn [negb]. unfold evict_overflow, get_size, pop, set_blockCache, set_nMisses.
  cbn [blockCache _max_size bblCount nMisses nHits].
  now destruct (Deque.size (Deque.push_front bbl (blockCache c)) >? _max_size c).
Qed.

Lemma CountBbl_hit c bbl :
  In bbl (blockCache c) ->
  CountBbl c bbl =
  mkBBLCache (blockCache c) (_max_size c)
             (incr64 (bblCount c)) (nMisses c) (incr64 (nHits c)).
Proof. intros Hin. unfold CountBbl. now rewrite push_hit. Qed.

Lemma CountBbl_miss c bbl :
  ~ In bbl (blockCache c) ->
  CountBbl c bbl =
  mkBBLCache (evict_overflow (_max_size c) (Deque.push_front bbl (blockCache c)))
             (_max_size c)
             (incr64 (bblCount c)) (incr64 (nMisses c)) (nHits c).
Proof. intros Hn. unfold CountBbl. now rewrite push_miss. Qed.

(** Case analysis on a call: hit or miss, with the equation of each. *)
Ltac count_cases c bbl :=
  let Hin := fresh "Hin" in
  destruct (In_dec_ptr bbl (blockCache c)) as [Hin|Hin];
  [ rewrite (CountBbl_hit c bbl Hin) | rewrite (CountBbl_miss c bbl Hin) ];
  cbn [blockCache _max_size bblCount nMisses nHits].

Lemma CountBbl_max_size c bbl : _max_size (CountBbl c bbl) = _max_size c.
Proof. count_cases c bbl; reflexivity. Qed.

Lemma CountBbl_bblCount c bbl : bblCount (CountBbl c bbl) = incr64 (bblCount c).
Proof. count_cases c bbl; reflexivity. Qed.

(** [pop] is reached only with a deque that has just received an element. *)
Lemma pop_only_on_nonempty bbl (d : Deque.t) :
  Deque.push_front bbl d <> [].
Proof. discriminate. Qed.

(** ** The eviction step on the deque *)

Lemma evict_overflow_firstn max_size (d : Deque.t) :
  Deque.size d <= max_size + 1 ->
  evict_overflow max_size d = firstn (Z.to_nat max_size) d.
Proof.
  unfold evict_overflow, Deque.size, Deque.pop_back. intros Hle.
  destruct (Z.gtb_spec (Z.of_nat (length d)) max_size) as [Hgt|Hngt].
  - rewrite removelast_firstn_len. f_equal. lia.
  - symmetry. apply firstn_all2. lia.
Qed.

Lemma evict_overflow_fits max_size (d : Deque.t) :
  Deque.size d <= max_size -> evict_overflow max_size d = d.
Proof.
  unfold evict_overflow. intros Hle.
  destruct (Z.gtb_spec (Deque.size d) max_size); [lia|reflexivity].
Qed.

Lemma evict_overflow_full max_size bbl (d : Deque.t) :
  d <> [] -> Deque.size d = max_size ->
  evict_overflow max_size (Deque.push_front bbl d) = bbl :: removelast d.
Proof.
  unfold evict_overflow, Deque.size, Deque.push_front, Deque.pop_back.
  intros Hne Hsz. cbn [length].
  destruct (Z.gtb_spec (Z.of_nat (S (length d))) max_size); [|lia].
  destruct d; [congruence|reflexivity].
Qed.

Lemma evict_overflow_length max_size (d : Deque.t) :
  0 <= max_size -> Deque.size d <= max_size + 1 ->
  Deque.size (evict_overflow max_size d) <= max_size.
Proof.
  intros Hpos Hle. rewrite evict_overflow_firstn by assumption.
  unfold Deque.size in *. rewrite length_firstn. lia.
Qed.

Lemma In_removelast (x : BBL_ptr) (d : Deque.t) :
  In x (removelast d) -> In x d.
Proof.
  induction d as [|y d' IH]; [tauto|].
  destruct d' as [|z d'']; [simpl; tauto|].
  change (In x (y :: removelast (z :: d'')) -> In x (y :: z :: d'')).
  intros [->|Hin]; [now left|right]. now apply IH.
Qed.

Lemma NoDup_removelast (d : Deque.t) : NoDup d -> NoDup (removelast d).
Proof.
  induction 1 as [|x l Hx Hl IH]; [constructor|].
  destruct l as [|y l']; [constructor|].
  change (NoDup (x :: removelast (y :: l'))). constructor; [|exact IH].
  intros Hin. apply Hx. now apply In_removelast.
Qed.

Lemma In_evict_overflow max_size x (d : Deque.t) :
  In x (evict_overflow max_size d) -> In x d.
Proof.
  unfold evict_overflow, Deque.pop_back.
  destruct (Deque.size d >? max_size); [apply In_removelast|auto].
Qed.

Lemma NoDup_evict_overflow max_size (d : Deque.t) :
  NoDup d -> NoDup (evict_overflow max_size d).
Proof.
  unfold evict_overflow, Deque.pop_back.
  destruct (Deque.size d >? max_size); [apply NoDup_removelast|auto].
Qed.

(** ** Runs and traces *)

Lemma run_app c ids1 ids2 : run c (ids1 ++ ids2) = run (run c ids1) ids2.
Proof. unfold run. apply fold_left_app. Qed.

Lemma run_snoc c ids id : run c (ids ++ [id]) = CountBbl (run c ids) id.
Proof. now rewrite run_app. Qed.

Lemma run_max_size c ids : _max_size (run c ids) = _max_size c.
Proof.
  revert c. induction ids as [|id rest IH]; intros c; [reflexivity|].
  change (run c (id :: rest)) with (run (CountBbl c id) rest).
  now rewrite IH, CountBbl_max_size.
Qed.

Lemma trace_length c ids : length (trace c ids) = length ids.
Proof.
  revert c. induction ids as [|id rest IH]; intros c; simpl; [|rewrite IH];
    reflexivity.
Qed.

(** Every element of the trace is the cache after some non-empty prefix. *)
Lemma In_trace c ids s :
  In s (trace c ids) <->
  exists pre id post, ids = pre ++ id :: post /\ s = run c (pre ++ [id]).
Proof.
  revert c. induction ids as [|id rest IH]; intros c; simpl.
  - split; [tauto|]. intros (pre & x & post & Heq & _).
    now destruct pre.
  - rewrite IH. split.
    + intros [<-|(pre & x & post & -> & ->)].
      * now exists [], id, rest.
      * now exists (id :: pre), x, post.
    + intros (pre & x & post & Heq & ->).
      destruct pre as [|p pre]; simpl in Heq; injection Heq as -> ->.
      * now left.
      * right. now exists pre, x, post.
Qed.

Section Invariants.

Variable P : BBLCache -> Prop.
Hypothesis P_step : forall c bbl, P c -> P (CountBbl c bbl).

Lemma run_invariant ids : forall c, P c -> P (run c ids).
Proof.
  induction ids as [|id rest IH]; intros c Hc; [exact Hc|].
  apply (IH (CountBbl c id)). now apply P_step.
Qed.

Lemma trace_invariant ids : forall c, P c -> Forall P (trace c ids).
Proof.
  induction ids as [|id rest IH]; intros c Hc; simpl; constructor.
  - now apply P_step.
  - apply IH. now apply P_step.
Qed.

End Invariants.

(** ** Accounting *)

Lemma incr64_neq x : incr64 x <> x.
Proof.
  unfold incr64. intros Heq.
  assert (Hr : 0 <= (x + 1) mod 2 ^ 64 < 2 ^ 64) by (apply Z.mod_pos_bound; lia).
  rewrite Heq in Hr.
  destruct (Z.eq_dec x (2 ^ 64 - 1)) as [->|Hne].
  - vm_compute in Heq. discriminate.
  - rewrite Z.mod_small in Heq by lia. lia.
Qed.

Lemma CountBbl_counts c bbl :
  (counts_hit c (CountBbl c bbl) /\ ~ counts_miss c (CountBbl c bbl)) \/
  (counts_miss c (CountBbl c bbl) /\ ~ counts_hit c (CountBbl c bbl)).
Proof.
  unfold counts_hit, counts_miss.
  count_cases c bbl; [left|right]; (split; [tauto|]);
    intros [H1 H2]; symmetry in H1, H2;
    first [ now apply incr64_neq in H1 | now apply incr64_neq in H2 ].
Qed.

Lemma counters_agree_step c bbl :
  counters_agree c -> counters_agree (CountBbl c bbl).
Proof.
  unfold counters_agree. intros H. count_cases c bbl.
  - now rewrite add64_incr64_l, H.
  - now rewrite add64_incr64_r, H.
Qed.

(** While fewer than 2^64 calls were made, no counter has wrapped. *)
Lemma counters_exact max_size ids :
  Z.of_nat (length ids) < 2 ^ 64 ->
  let s := run (BBLCache_new max_size) ids in
  0 <= nHits s /\ 0 <= nMisses s /\
  nHits s + nMisses s = Z.of_nat (length ids) /\
  bblCount s = Z.of_nat (length ids).
Proof.
  induction ids as [|id ids IH] using rev_ind; intros Hlen s.
  - subst s. cbn. lia.
  - rewrite length_app in Hlen. cbn [length] in Hlen.
    destruct IH as (Hh & Hm & Hsum & Hcnt); [lia|].
    subst s. rewrite run_snoc, length_app. cbn [length].
    set (s := run (BBLCache_new max_size) ids) in *.
    count_cases s id; rewrite Hcnt;
      rewrite !incr64_small by lia; lia.
Qed.

(** C1: after each call of a run on a freshly constructed cache of any
    capacity, hits plus misses equal the number of accesses.  Each call
    increments [bblCount] and exactly one of [nHits], [nMisses].  The
    identity holds for the [UINT64] sum on every run, and for the integer
    sum while fewer than 2^64 calls were made. *)
Theorem C1_hits_plus_misses (max_size : Z) (ids : list BBL_ptr) :
  (forall c bbl,
      bblCount (CountBbl c bbl) = incr64 (bblCount c) /\
      ((counts_hit c (CountBbl c bbl) /\ ~ counts_miss c (CountBbl c bbl)) \/
       (counts_miss c (CountBbl c bbl) /\ ~ counts_hit c (CountBbl c bbl)))) /\
  Forall counters_agree (trace (BBLCache_new max_size) ids) /\
  (Z.of_nat (length ids) < 2 ^ 64 ->
   Forall counters_agree_exact (trace (BBLCache_new max_size) ids)).
Proof.
  split; [|split].
  - intros c bbl. split; [apply CountBbl_bblCount|apply CountBbl_counts].
  - apply trace_invariant; [exact counters_agree_step|reflexivity].
  - intros Hlen. apply Forall_forall. intros s Hs.
    apply In_trace in Hs. destruct Hs as (pre & id & post & -> & ->).
    assert (Hpre : Z.of_nat (length (pre ++ [id])) < 2 ^ 64).
    { rewrite !length_app in *. cbn [length] in *. lia. }
    destruct (counters_exact max_size _ Hpre) as (_ & _ & Hsum & Hcnt).
    unfold counters_agree_exact. lia.
Qed.

Lemma C1_hits_plus_misses_witness :
  Z.of_nat (length [10; 20; 10; 30]) < 2 ^ 64 /\
  Forall counters_agree_exact (trace (BBLCache_new 2) [10; 20; 10; 30]).
Proof.
  split; [reflexivity|].
  apply (C1_hits_plus_misses 2 [10; 20; 10; 30]). reflexivity.
Defined.

(** ** Occupancy *)

Lemma get_size_step capacity c bbl :
  0 <= capacity -> _max_size c = capacity ->
  get_size c <= capacity -> get_size (CountBbl c bbl) <= capacity.
Proof.
  intros Hpos Hmax Hsz. unfold get_size in *. count_cases c bbl; [exact Hsz|].
  rewrite Hmax. apply evict_overflow_length; [exact Hpos|].
  unfold Deque.size, Deque.push_front in *. cbn [length]. lia.
Qed.

Lemma run_size_bounded capacity ids :
  0 <= capacity -> get_size (run (BBLCache_new capacity) ids) <= capacity.
Proof.
  intros Hpos.
  apply (run_invariant (fun s => _max_size s = capacity /\ get_size s <= capacity)).
  - intros c bbl [Hm Hs]. split.
    + now rewrite CountBbl_max_size.
    + now apply get_size_step.
  - split; [reflexivity|]. cbn. exact Hpos.
Qed.

(** C2: with a capacity of at least 1 the occupancy never exceeds the
    capacity after any call.  A miss puts the identifier in front and, when
    that makes the deque longer than the capacity, drops exactly one entry,
    the oldest, in the same call. *)
Theorem C2_size_le_capacity (capacity : Z) (ids : list BBL_ptr) :
  1 <= capacity ->
  Forall (fun s => get_size s <= capacity) (trace (BBLCache_new capacity) ids) /\
  (forall pre id,
      let s := run (BBLCache_new capacity) pre in
      let s' := CountBbl s id in
      ~ In id (blockCache s) ->
      (Deque.size (id :: blockCache s) <= capacity ->
       blockCache s' = id :: blockCache s) /\
      (Deque.size (id :: blockCache s) > capacity ->
       exists oldest,
         id :: blockCache s = blockCache s' ++ [oldest] /\
         get_size s' = capacity)).
Proof.
  intros Hcap. split.
  - apply Forall_forall. intros s Hs.
    apply In_trace in Hs. destruct Hs as (pre & id & post & _ & ->).
    apply run_size_bounded. lia.
  - intros pre id s s' Hn.
    assert (Hmax : _max_size s = capacity) by (subst s; apply run_max_size).
    assert (Hsz : get_size s <= capacity) by (subst s; apply run_size_bounded; lia).
    subst s'. rewrite (CountBbl_miss s id Hn).
    cbn [blockCache]. rewrite Hmax. unfold Deque.push_front. split.
    + intros Hfit. now apply evict_overflow_fits.
    + intros Hover. unfold evict_overflow, Deque.pop_back.
      destruct (Z.gtb_spec (Deque.size (id :: blockCache s)) capacity); [|lia].
      exists (last (id :: blockCache s) id). split.
      * apply app_removelast_last. discriminate.
      * unfold get_size, Deque.size in *. cbn [blockCache].
        rewrite removelast_firstn_len, length_firstn.
        cbn [length] in *. lia.
Qed.

Lemma C2_size_le_capacity_witness :
  1 <= 2 /\
  Forall (fun s => get_size s <= 2) (trace (BBLCache_new 2) [10; 20; 10; 30]) /\
  (exists oldest,
      30 :: blockCache (run (BBLCache_new 2) [10; 20; 10]) =
      blockCache (CountBbl (run (BBLCache_new 2) [10; 20; 10]) 30) ++ [oldest] /\
      get_size (CountBbl (run (BBLCache_new 2) [10; 20; 10]) 30) = 2).
Proof.
  assert (H12 : 1 <= 2) by lia.
  destruct (C2_size_le_capacity 2 [10; 20; 10; 30] H12) as [Hall Hstep].
  split; [exact H12|]. split; [exact Hall|].
  apply (Hstep [10; 20; 10] 30).
  - vm_compute. intros [H|[H|[]]]; discriminate H.
  - reflexivity.
Defined.

(** ** Hits and misses, one call at a time *)

(** C3: recording an identifier that is already in the deque leaves the
    deque as it is (same entries, same order); only [nHits] and [bblCount]
    move.  On entries [a; b; c] with capacity 3, recording [b] leaves
    [a; b; c], and recording an absent [d] next gives [d; a; b]. *)
Theorem C3_hit_leaves_entries :
  (forall c bbl,
      In bbl (blockCache c) ->
      CountBbl c bbl =
      mkBBLCache (blockCache c) (_max_size c)
                 (incr64 (bblCount c)) (nMisses c) (incr64 (nHits c))) /\
  (forall a b c d count misses hits,
      d <> a -> d <> b -> d <> c ->
      let s0 := mkBBLCache [a; b; c] 3 count misses hits in
      let s1 := CountBbl s0 b in
      let s2 := CountBbl s1 d in
      blockCache s1 = [a; b; c] /\ blockCache s2 = [d; a; b]).
Proof.
  split.
  - exact CountBbl_hit.
  - intros a b c d count misses hits Ha Hb Hc s0 s1 s2.
    assert (Hin : In b (blockCache s0)) by (cbn; tauto).
    assert (H1 : blockCache s1 = [a; b; c]).
    { subst s1. now rewrite (CountBbl_hit s0 b Hin). }
    split; [exact H1|].
    assert (Hn : ~ In d (blockCache s1)).
    { rewrite H1. cbn. intros [H|[H|[H|[]]]]; congruence. }
    subst s2. rewrite (CountBbl_miss s1 d Hn). cbn [blockCache].
    rewrite H1. subst s1. rewrite CountBbl_max_size. reflexivity.
Qed.

Lemma C3_hit_leaves_entries_witness :
  In 20 (blockCache (mkBBLCache [10; 20; 30] 3 7 5 2)) /\
  CountBbl (mkBBLCache [10; 20; 30] 3 7 5 2) 20 =
  mkBBLCache [10; 20; 30] 3 8 5 3 /\
  blockCache (CountBbl (CountBbl (mkBBLCache [10; 20; 30] 3 7 5 2) 20) 40) =
  [40; 10; 20].
Proof.
  destruct C3_hit_leaves_entries as [Hhit Hscn].
  assert (Hin : In 20 (blockCache (mkBBLCache [10; 20; 30] 3 7 5 2))).
  { cbn. tauto. }
  split; [exact Hin|]. split.
  - exact (Hhit _ 20 Hin).
  - apply (Hscn 10 20 30 40 7 5 2); discriminate.
Defined.

(** C4: recording an identifier that is not in the deque increments
    [nMisses] and pushes the identifier at the front; the overflow test
    follows in the same call.  With [_max_size >= 1] the identifier is the
    front entry when the call returns. *)
Theorem C4_miss_inserts_front (c : BBLCache) (id : BBL_ptr) :
  ~ In id (blockCache c) ->
  let c' := CountBbl c id in
  nMisses c' = incr64 (nMisses c) /\
  (0 <= nMisses c < 2 ^ 64 - 1 -> nMisses c' = nMisses c + 1) /\
  nHits c' = nHits c /\
  blockCache c' =
    evict_overflow (_max_size c) (Deque.push_front id (blockCache c)) /\
  (1 <= _max_size c ->
   exists rest,
     blockCache c' = id :: rest /\
     (rest = blockCache c \/ rest = removelast (blockCache c))).
Proof.
  intros Hn c'. subst c'. rewrite (CountBbl_miss c id Hn).
  cbn [blockCache nMisses nHits].
  split; [reflexivity|]. split; [apply incr64_small|].
  split; [reflexivity|]. split; [reflexivity|].
  intros Hmax. unfold evict_overflow, Deque.push_front, Deque.pop_back.
  destruct (Z.gtb_spec (Deque.size (id :: blockCache c)) (_max_size c)) as [Hgt|Hle].
  - destruct (blockCache c) as [|x d] eqn:Hd.
    + unfold Deque.size in Hgt. cbn in Hgt. lia.
    + exists (removelast (x :: d)). split; [reflexivity|now right].
  - exists (blockCache c). split; [reflexivity|now left].
Qed.

Lemma C4_miss_inserts_front_witness :
  ~ In 30 (blockCache (mkBBLCache [20; 10] 2 2 2 0)) /\
  nMisses (CountBbl (mkBBLCache [20; 10] 2 2 2 0) 30) = 3 /\
  exists rest,
    blockCache (CountBbl (mkBBLCache [20; 10] 2 2 2 0) 30) = 30 :: rest /\
    (rest = [20; 10] \/ rest = removelast [20; 10]).
Proof.
  assert (Hn : ~ In 30 (blockCache (mkBBLCache [20; 10] 2 2 2 0))).
  { cbn. intros [H|[H|[]]]; discriminate H. }
  destruct (C4_miss_inserts_front (mkBBLCache [20; 10] 2 2 2 0) 30 Hn)
    as (_ & Hplus & _ & _ & Hfront).
  split; [exact Hn|]. split.
  - apply Hplus. cbn. lia.
  - apply Hfront. cbn. lia.
Defined.

(** ** Runs of pairwise distinct identifiers *)

Lemma In_firstn_ptr n (x : BBL_ptr) (d : Deque.t) :
  In x (firstn n d) -> In x d.
Proof.
  revert d. induction n as [|n IH]; intros [|y d]; simpl; try tauto.
  intros [->|Hin]; [now left|right]. now apply IH.
Qed.

Lemma firstn_cons_firstn n (x : BBL_ptr) (d : Deque.t) :
  firstn n (x :: firstn n d) = firstn n (x :: d).
Proof.
  destruct n as [|n]; [reflexivity|].
  rewrite !firstn_cons, firstn_firstn. do 2 f_equal. lia.
Qed.

(** With distinct identifiers every call is a miss, and the deque holds the
    last [max_size] of them, newest first. *)
Lemma run_distinct max_size ids :
  0 <= max_size -> NoDup ids ->
  blockCache (run (BBLCache_new max_size) ids) =
  firstn (Z.to_nat max_size) (rev ids).
Proof.
  intros Hpos. induction ids as [|id ids IH] using rev_ind; intros Hnd.
  - cbn. now rewrite firstn_nil.
  - assert (Hnd' : NoDup ids).
    { apply NoDup_remove_1 in Hnd. now rewrite app_nil_r in Hnd. }
    assert (Hid : ~ In id ids).
    { apply NoDup_remove_2 in Hnd. now rewrite app_nil_r in Hnd. }
    specialize (IH Hnd'). rewrite run_snoc.
    set (s := run (BBLCache_new max_size) ids) in *.
    assert (Hn : ~ In id (blockCache s)).
    { rewrite IH. intros Hin. apply In_firstn_ptr in Hin.
      apply Hid. now apply in_rev. }
    rewrite (CountBbl_miss s id Hn). cbn [blockCache].
    unfold s at 1. rewrite run_max_size. cbn [_max_size BBLCache_new].
    rewrite evict_overflow_firstn.
    + rewrite IH, rev_app_distr. cbn [rev app Deque.push_front].
      apply firstn_cons_firstn.
    + rewrite IH. unfold Deque.size, Deque.push_front. cbn [length].
      rewrite length_firstn. lia.
Qed.

Lemma run_distinct_nMisses max_size ids :
  NoDup ids -> Z.of_nat (length ids) < 2 ^ 64 -> 0 <= max_size ->
  nMisses (run (BBLCache_new max_size) ids) = Z.of_nat (length ids) /\
  nHits (run (BBLCache_new max_size) ids) = 0.
Proof.
  intros Hnd Hlen Hpos. induction ids as [|id ids IH] using rev_ind.
  - cbn. lia.
  - assert (Hnd' : NoDup ids).
    { apply NoDup_remove_1 in Hnd. now rewrite app_nil_r in Hnd. }
    assert (Hid : ~ In id ids).
    { apply NoDup_remove_2 in Hnd. now rewrite app_nil_r in Hnd. }
    rewrite length_app in *. cbn [length] in *.
    destruct (IH Hnd') as [Hm Hh]; [lia|].
    rewrite run_snoc.
    assert (Hn : ~ In id (blockCache (run (BBLCache_new max_size) ids))).
    { rewrite run_distinct by assumption. intros Hin.
      apply In_firstn_ptr in Hin. apply Hid. now apply in_rev. }
    rewrite (CountBbl_miss _ id Hn). cbn [nMisses nHits].
    rewrite Hm, Hh, incr64_small by lia. lia.
Qed.

(** C5: with capacity [N >= 1], recording [N + 1] pairwise distinct
    identifiers [x1 :: rest] from the empty cache leaves [x1] absent, every
    identifier of [rest] present and [N] entries. *)
Theorem C5_eviction_exactness (N : Z) (x1 : BBL_ptr) (rest : list BBL_ptr) :
  1 <= N ->
  NoDup (x1 :: rest) ->
  Z.of_nat (length rest) = N ->
  let s := run (BBLCache_new N) (x1 :: rest) in
  ~ In x1 (blockCache s) /\
  (forall x, In x rest -> In x (blockCache s)) /\
  get_size s = N /\
  blockCache s = rev rest.
Proof.
  intros HN Hnd Hlen s.
  assert (Hs : blockCache s = rev rest).
  { subst s. rewrite run_distinct by (assumption || lia).
    cbn [rev]. rewrite firstn_app, length_rev.
    replace (Z.to_nat N - length rest)%nat with 0%nat by lia.
    rewrite firstn_O, app_nil_r. apply firstn_all2.
    rewrite length_rev. lia. }
  inversion Hnd as [|? ? Hx1 Hrest]; subst.
  rewrite Hs. split; [|split; [|split]].
  - intros Hin. apply Hx1. now apply in_rev.
  - intros x Hin. now apply in_rev in Hin.
  - unfold get_size, Deque.size. now rewrite Hs, length_rev.
  - reflexivity.
Qed.

Lemma C5_eviction_exactness_witness :
  1 <= 3 /\ NoDup [10; 20; 30; 40] /\ Z.of_nat (length [20; 30; 40]) = 3 /\
  ~ In 10 (blockCache (run (BBLCache_new 3) [10; 20; 30; 40])) /\
  get_size (run (BBLCache_new 3) [10; 20; 30; 40]) = 3.
Proof.
  assert (H13 : 1 <= 3) by lia.
  assert (Hnd : NoDup [10; 20; 30; 40]).
  { repeat constructor; cbn; intuition discriminate. }
  assert (Hlen : Z.of_nat (length [20; 30; 40]) = 3) by reflexivity.
  destruct (C5_eviction_exactness 3 10 [20; 30; 40] H13 Hnd Hlen)
    as (Habs & _ & Hsz & _).
  repeat split; assumption.
Defined.

(** ** The two scenarios *)

Local Arguments CountBbl : simpl never.

(** Resolve the innermost pending call, as a miss or as a hit. *)
Ltac record_miss :=
  match goal with
  | |- context [CountBbl (mkBBLCache ?q ?m ?n ?mi ?h) ?x] =>
      rewrite (CountBbl_miss (mkBBLCache q m n mi h) x)
        by (cbn; intuition congruence);
      cbn
  end.

Ltac record_hit :=
  match goal with
  | |- context [CountBbl (mkBBLCache ?q ?m ?n ?mi ?h) ?x] =>
      rewrite (CountBbl_hit (mkBBLCache q m n mi h) x)
        by (cbn; intuition congruence);
      cbn
  end.

(** C6 (scenario A): capacity 2, recording [A; B; A; C] with [A], [B],
    [C] distinct gives 4 accesses, 1 hit, 3 misses and entries [C; B]. *)
Theorem C6_scenario_A (A B C : BBL_ptr) :
  A <> B -> A <> C -> B <> C ->
  let s := run (BBLCache_new 2) [A; B; A; C] in
  bblCount s = 4 /\ nHits s = 1 /\ nMisses s = 3 /\
  blockCache s = [C; B] /\ get_size s = 2.
Proof.
  intros HAB HAC HBC s. subst s. unfold run, BBLCache_new. cbn [fold_left].
  record_miss. record_miss. record_hit. record_miss.
  repeat split; reflexivity.
Qed.

Lemma C6_scenario_A_witness :
  10 <> 20 /\ 10 <> 30 /\ 20 <> 30 /\
  blockCache (run (BBLCache_new 2) [10; 20; 10; 30]) = [30; 20] /\
  nHits (run (BBLCache_new 2) [10; 20; 10; 30]) = 1.
Proof.
  assert (H1 : 10 <> 20) by discriminate.
  assert (H2 : 10 <> 30) by discriminate.
  assert (H3 : 20 <> 30) by discriminate.
  destruct (C6_scenario_A 10 20 30 H1 H2 H3) as (_ & Hh & _ & Hq & _).
  repeat split; assumption.
Defined.

(** C7 (scenario B): capacity 1, recording [X; Y; X] with [X], [Y]
    distinct gives 3 accesses, no hit, 3 misses and entries [X]: recording
    [Y] evicts [X], so the last call misses. *)
Theorem C7_scenario_B (X Y : BBL_ptr) :
  X <> Y ->
  let s2 := run (BBLCache_new 1) [X; Y] in
  let s := run (BBLCache_new 1) [X; Y; X] in
  blockCache s2 = [Y] /\ ~ In X (blockCache s2) /\
  bblCount s = 3 /\ nHits s = 0 /\ nMisses s = 3 /\
  blockCache s = [X] /\ get_size s = 1.
Proof.
  intros HXY s2 s. subst s2 s. unfold run, BBLCache_new. cbn [fold_left].
  record_miss. record_miss. split; [reflexivity|].
  split; [cbn; intuition congruence|].
  record_miss. repeat split; reflexivity.
Qed.

Lemma C7_scenario_B_witness :
  10 <> 20 /\
  blockCache (run (BBLCache_new 1) [10; 20; 10]) = [10] /\
  nHits (run (BBLCache_new 1) [10; 20; 10]) = 0 /\
  nMisses (run (BBLCache_new 1) [10; 20; 10]) = 3.
Proof.
  assert (H1 : 10 <> 20) by discriminate.
  destruct (C7_scenario_B 10 20 H1) as (_ & _ & _ & Hh & Hm & Hq & _).
  repeat split; assumption.
Defined.

(** ** Entries are pairwise distinct *)

Lemma scan_flag bbl blocks c :
  snd (scan bbl blocks c) = true <-> In bbl blocks.
Proof.
  destruct (In_dec_ptr bbl blocks) as [Hin|Hn].
  - rewrite scan_present by assumption. cbn. tauto.
  - rewrite scan_absent by assumption. cbn. split; [discriminate|tauto].
Qed.

Lemma NoDup_step c bbl :
  NoDup (blockCache c) -> NoDup (blockCache (CountBbl c bbl)).
Proof.
  intros Hnd. count_cases c bbl; [exact Hnd|].
  apply NoDup_evict_overflow. now constructor.
Qed.

(** C8: from the empty cache, whatever the capacity, the deque never holds
    an identifier twice.  The loop's flag is set exactly when the identifier
    is in the deque, and in that case nothing is inserted. *)
Theorem C8_no_duplicates (max_size : Z) (ids : list BBL_ptr) :
  Forall (fun s => NoDup (blockCache s)) (trace (BBLCache_new max_size) ids) /\
  (forall c bbl,
      (snd (scan bbl (blockCache c) c) = true <-> In bbl (blockCache c)) /\
      (In bbl (blockCache c) -> blockCache (push c bbl) = blockCache c)).
Proof.
  split.
  - apply trace_invariant; [exact NoDup_step|constructor].
  - intros c bbl. split; [apply scan_flag|].
    intros Hin. now rewrite push_hit.
Qed.

Lemma C8_no_duplicates_witness :
  Forall (fun s => NoDup (blockCache s))
         (trace (BBLCache_new 2) [10; 20; 10; 30; 20]) /\
  In 20 (blockCache (mkBBLCache [30; 20] 2 4 3 1)) /\
  blockCache (push (mkBBLCache [30; 20] 2 4 3 1) 20) = [30; 20].
Proof.
  destruct (C8_no_duplicates 2 [10; 20; 10; 30; 20]) as [Hall Hstep].
  assert (Hin : In 20 (blockCache (mkBBLCache [30; 20] 2 4 3 1))).
  { cbn. tauto. }
  split; [exact Hall|]. split; [exact Hin|].
  exact (proj2 (Hstep (mkBBLCache [30; 20] 2 4 3 1) 20) Hin).
Defined.

(** ** Capacity zero *)

Lemma always_empty_step c bbl :
  always_empty c -> always_empty (CountBbl c bbl).
Proof.
  intros (Hmax & Hq & Hh). unfold always_empty.
  assert (Hn : ~ In bbl (blockCache c)) by (rewrite Hq; cbn; tauto).
  rewrite (CountBbl_miss c bbl Hn). cbn [blockCache _max_size nHits].
  rewrite Hmax, Hq. now split.
Qed.

Lemma run_zero_nMisses ids :
  nMisses (run (BBLCache_new 0) ids) = Z.of_nat (length ids) mod 2 ^ 64.
Proof.
  induction ids as [|id ids IH] using rev_ind; [reflexivity|].
  rewrite run_snoc.
  assert (He : always_empty (run (BBLCache_new 0) ids)).
  { apply run_invariant; [exact always_empty_step|now split]. }
  destruct He as (_ & Hq & _).
  assert (Hn : ~ In id (blockCache (run (BBLCache_new 0) ids))).
  { rewrite Hq. cbn. tauto. }
  rewrite (CountBbl_miss _ id Hn). cbn [nMisses]. rewrite IH.
  unfold incr64. rewrite Zplus_mod_idemp_l, length_app. cbn [length].
  f_equal. lia.
Qed.

(** On a miss, [push] is the overflow test applied to the cache that has
    received the identifier. *)
Lemma push_miss_staged c bbl :
  ~ In bbl (blockCache c) ->
  push c bbl =
  if get_size (insert_on_miss c bbl) >? _max_size (insert_on_miss c bbl)
  then pop (insert_on_miss c bbl)
  else insert_on_miss c bbl.
Proof.
  intros Hn. unfold push. now rewrite scan_absent by assumption.
Qed.

(** C9: with capacity 0 every call is a miss and the deque is empty after
    every call, and no hit is ever counted.  Inside each call the scan
    finds nothing, the identifier is pushed (the deque is then exactly that
    identifier), the overflow test succeeds (size 1 against capacity 0), and
    [pop] removes the identifier again before the call returns. *)
Theorem C9_capacity_zero (ids : list BBL_ptr) :
  main_cache 0 = BBLCache_new 0 /\
  Forall (fun s => blockCache s = [] /\ get_size s = 0 /\ nHits s = 0)
         (trace (BBLCache_new 0) ids) /\
  (forall pre id,
      let s := run (BBLCache_new 0) pre in
      let s0 := set_bblCount s (incr64 (bblCount s)) in
      let s3 := insert_on_miss s0 id in
      counts_miss s (CountBbl s id) /\
      Deque.pop_back (Deque.push_front id (blockCache s)) = [] /\
      blockCache (CountBbl s id) =
        Deque.pop_back (Deque.push_front id (blockCache s)) /\
      snd (scan id (blockCache s0) s0) = false /\
      blockCache s3 = [id] /\
      In id (blockCache s3) /\
      get_size s3 = 1 /\
      (get_size s3 >? _max_size s3) = true /\
      CountBbl s id = pop s3 /\
      blockCache (pop s3) = [] /\
      ~ In id (blockCache (CountBbl s id))) /\
  nMisses (run (BBLCache_new 0) ids) = Z.of_nat (length ids) mod 2 ^ 64.
Proof.
  split; [reflexivity|]. split; [|split].
  - apply Forall_forall. intros s Hs.
    apply In_trace in Hs. destruct Hs as (pre & id & post & _ & ->).
    assert (He : always_empty (run (BBLCache_new 0) (pre ++ [id]))).
    { apply run_invariant; [exact always_empty_step|now split]. }
    destruct He as (_ & Hq & Hh). unfold get_size. rewrite Hq. now split.
  - intros pre id s s0 s3.
    assert (He : always_empty s).
    { apply run_invariant; [exact always_empty_step|now split]. }
    destruct He as (Hmax & Hq & Hh).
    assert (Hn : ~ In id (blockCache s)) by (rewrite Hq; cbn; tauto).
    assert (Hq0 : blockCache s0 = []) by exact Hq.
    assert (Hq3 : blockCache s3 = [id]).
    { subst s3. unfold insert_on_miss, Deque.push_front.
      cbn [blockCache set_blockCache set_nMisses]. now rewrite Hq0. }
    assert (Hsz : get_size s3 = 1).
    { unfold get_size, Deque.size. now rewrite Hq3. }
    assert (Hm3 : _max_size s3 = 0) by exact Hmax.
    assert (Htest : (get_size s3 >? _max_size s3) = true).
    { now rewrite Hsz, Hm3. }
    assert (Hcall : CountBbl s id = pop s3).
    { unfold CountBbl. fold s0. rewrite push_miss_staged.
      - fold s3. now rewrite Htest.
      - rewrite Hq0. cbn. tauto. }
    assert (Hpop : blockCache (pop s3) = []).
    { unfold pop, Deque.pop_back. cbn [blockCache set_blockCache].
      now rewrite Hq3. }
    split.
    { unfold counts_miss. rewrite (CountBbl_miss s id Hn).
      cbn [nHits nMisses]. now split. }
    split; [now rewrite Hq|].
    split.
    { rewrite (CountBbl_miss s id Hn). cbn [blockCache].
      now rewrite Hmax, Hq. }
    split; [now rewrite Hq0|].
    split; [exact Hq3|].
    split; [rewrite Hq3; now left|].
    split; [exact Hsz|].
    split; [exact Htest|].
    split; [exact Hcall|].
    split; [exact Hpop|].
    rewrite Hcall, Hpop. cbn. tauto.
  - apply run_zero_nMisses.
Qed.

(** ** Runs that never fill the cache *)

(** While the number of calls does not exceed the capacity, nothing is
    evicted: the deque holds exactly the identifiers seen, once each, and
    [nMisses] is its length. *)
Lemma run_within_capacity max_size ids :
  max_size < 2 ^ 64 ->
  Z.of_nat (length ids) <= max_size ->
  let s := run (BBLCache_new max_size) ids in
  NoDup (blockCache s) /\
  (forall x, In x (blockCache s) <-> In x ids) /\
  nMisses s = Z.of_nat (length (blockCache s)) /\
  (length (blockCache s) <= length ids)%nat.
Proof.
  intros Hmax. induction ids as [|id ids IH] using rev_ind; intros Hlen s.
  - subst s. cbn. repeat split; try tauto; constructor.
  - rewrite length_app in Hlen. cbn [length] in Hlen.
    destruct IH as (Hnd & Hin & Hm & Hle); [lia|].
    subst s. rewrite run_snoc, length_app. cbn [length].
    set (s := run (BBLCache_new max_size) ids) in *.
    assert (Hs : _max_size s = max_size) by apply run_max_size.
    destruct (In_dec_ptr id (blockCache s)) as [Hhit|Hmiss].
    + rewrite (CountBbl_hit s id Hhit). cbn [blockCache nMisses].
      repeat split; try assumption; try lia.
      * intros Hx. apply in_or_app. left. now apply Hin.
      * intros Hx. apply in_app_or in Hx. destruct Hx as [Hx|[<-|[]]];
          [now apply Hin|exact Hhit].
    + rewrite (CountBbl_miss s id Hmiss). cbn [blockCache nMisses].
      rewrite Hs, evict_overflow_fits
        by (unfold Deque.size, Deque.push_front; cbn [length]; lia).
      unfold Deque.push_front. cbn [length].
      repeat split; try lia.
      * now constructor.
      * intros [<-|Hx]; apply in_or_app; [right; now left|left; now apply Hin].
      * intros Hx. apply in_app_or in Hx. destruct Hx as [Hx|[<-|[]]];
          [right; now apply Hin|now left].
      * rewrite Hm, incr64_small by lia. lia.
Qed.

Lemma run_within_capacity_nMisses max_size ids :
  max_size < 2 ^ 64 ->
  Z.of_nat (length ids) <= max_size ->
  nMisses (run (BBLCache_new max_size) ids) =
  Z.of_nat (length (nodup Z.eq_dec ids)).
Proof.
  intros Hmax Hlen.
  destruct (run_within_capacity max_size ids Hmax Hlen) as (Hnd & Hin & Hm & _).
  rewrite Hm. f_equal. apply Nat.le_antisymm.
  - apply NoDup_incl_length; [exact Hnd|].
    intros x Hx. apply nodup_In. now apply Hin.
  - apply NoDup_incl_length; [apply NoDup_nodup|].
    intros x Hx. apply Hin. now apply nodup_In in Hx.
Qed.

(** ** Runs of [distinct_ids] *)

Lemma distinct_ids_length k : length (distinct_ids k) = k.
Proof. unfold distinct_ids. now rewrite length_map, length_seq. Qed.

Lemma distinct_ids_NoDup k : NoDup (distinct_ids k).
Proof.
  unfold distinct_ids. generalize (seq_NoDup k 1).
  induction 1 as [|x l Hx Hl IH]; [constructor|].
  cbn [map]. constructor; [|exact IH].
  intros Hin. apply in_map_iff in Hin. destruct Hin as (y & Heq & Hy).
  apply Nat2Z.inj in Heq. now subst y.
Qed.

Lemma distinct_ids_first z : 1 <= z -> In 1 (distinct_ids (Z.to_nat z)).
Proof.
  intros Hz. unfold distinct_ids. apply in_map_iff.
  exists 1%nat. split; [reflexivity|]. apply in_seq. lia.
Qed.

(** One identifier more than the capacity, all distinct: the first one is
    gone at the end. *)
Lemma distinct_ids_overflow max_size z :
  0 <= max_size < z ->
  ~ In 1 (blockCache (run (BBLCache_new max_size) (distinct_ids (Z.to_nat z)))).
Proof.
  intros Hz. rewrite run_distinct by (lia || apply distinct_ids_NoDup).
  generalize (Z2Nat.inj_lt max_size z). intros Hlt.
  assert (Hk : (Z.to_nat max_size < Z.to_nat z)%nat) by (apply Hlt; lia).
  clear Hlt. revert Hk.
  generalize (Z.to_nat z) as k. generalize (Z.to_nat max_size) as m.
  intros m [|k] Hk; [lia|].
  unfold distinct_ids. cbn [seq map rev].
  rewrite firstn_app, length_rev, length_map, length_seq.
  replace (m - k)%nat with 0%nat by lia. rewrite firstn_O, app_nil_r.
  intros Hin. apply In_firstn_ptr in Hin. apply in_rev in Hin.
  apply in_map_iff in Hin. destruct Hin as (y & Heq & Hy).
  apply in_seq in Hy. lia.
Qed.

(** C10, as the code has it: a negative [INT32] knob value [n] becomes
    [_max_size = n + 2^32] (at least 2^31, and 4294967295 for -1).  For
    every sequence of at most [n + 2^32] calls no entry is evicted, every
    identifier recorded so far is present, and [nMisses] is the number of
    distinct identifiers recorded. *)
Theorem C10_negative_knob (n : Z) (ids : list BBL_ptr) :
  - 2 ^ 31 <= n < 0 ->
  Z.of_nat (length ids) <= n + 2 ^ 32 ->
  let c := main_cache n in
  _max_size c = n + 2 ^ 32 /\
  2 ^ 31 <= _max_size c <= UINT32_MAX /\
  (forall pre id post,
      ids = pre ++ id :: post ->
      let s := run c pre in
      blockCache (CountBbl s id) = blockCache s \/
      blockCache (CountBbl s id) = id :: blockCache s) /\
  (forall pre post x,
      ids = pre ++ post -> In x pre -> In x (blockCache (run c pre))) /\
  nMisses (run c ids) = Z.of_nat (length (nodup Z.eq_dec ids)).
Proof.
  intros Hn Hlen c.
  assert (Hc : c = BBLCache_new (n + 2 ^ 32)).
  { subst c. unfold main_cache. now rewrite to_UINT32_negative. }
  rewrite Hc. cbn [_max_size BBLCache_new]. unfold UINT32_MAX.
  split; [reflexivity|]. split; [lia|]. split; [|split].
  - intros pre id post ->. rewrite length_app in Hlen. cbn [length] in Hlen.
    destruct (run_within_capacity (n + 2 ^ 32) pre) as (_ & _ & _ & Hle);
      [lia|lia|].
    change (mkBBLCache [] (n + 2 ^ 32) 0 0 0) with (BBLCache_new (n + 2 ^ 32)).
    set (s := run (BBLCache_new (n + 2 ^ 32)) pre) in *.
    assert (Hs : _max_size s = n + 2 ^ 32) by apply run_max_size.
    count_cases s id; [now left|right].
    rewrite Hs. apply evict_overflow_fits.
    unfold Deque.size, Deque.push_front. cbn [length]. lia.
  - intros pre post x -> Hx. rewrite length_app in Hlen.
    change (mkBBLCache [] (n + 2 ^ 32) 0 0 0) with (BBLCache_new (n + 2 ^ 32)).
    destruct (run_within_capacity (n + 2 ^ 32) pre) as (_ & Hin & _);
      [lia|lia|].
    now apply Hin.
  - change (mkBBLCache [] (n + 2 ^ 32) 0 0 0) with (BBLCache_new (n + 2 ^ 32)).
    apply run_within_capacity_nMisses; lia.
Qed.

Lemma C10_negative_knob_witness :
  - 2 ^ 31 <= -1 < 0 /\
  Z.of_nat (length [10; 20; 10]) <= -1 + 2 ^ 32 /\
  _max_size (main_cache (-1)) = -1 + 2 ^ 32 /\
  nMisses (run (main_cache (-1)) [10; 20; 10]) =
  Z.of_nat (length (nodup Z.eq_dec [10; 20; 10])).
Proof.
  assert (Hn : - 2 ^ 31 <= -1 < 0) by lia.
  assert (Hlen : Z.of_nat (length [10; 20; 10]) <= -1 + 2 ^ 32).
  { cbn. lia. }
  destruct (C10_negative_knob (-1) [10; 20; 10] Hn Hlen) as (Hm & _ & _ & _ & Hd).
  split; [exact Hn|]. split; [exact Hlen|]. split; [exact Hm|exact Hd].
Defined.

(** The bound of 2^32 calls does not hold for every negative knob value:
    with the knob at -2147483648 the capacity is 2^31, and 2^31 + 1 distinct
    identifiers (fewer than 2^32 calls) evict the first one recorded. *)
Lemma C10_fewer_than_2_32_counterexample :
  - 2 ^ 31 <= -2147483648 < 0 /\
  Z.of_nat (length (distinct_ids (Z.to_nat 2147483649))) < 2 ^ 32 /\
  In 1 (distinct_ids (Z.to_nat 2147483649)) /\
  ~ In 1 (blockCache (run (main_cache (-2147483648))
                          (distinct_ids (Z.to_nat 2147483649)))).
Proof.
  split; [lia|]. split; [|split].
  - rewrite distinct_ids_length, Z2Nat.id by lia. lia.
  - apply distinct_ids_first. lia.
  - assert (Hc : main_cache (-2147483648) = BBLCache_new 2147483648)
      by reflexivity.
    rewrite Hc. apply distinct_ids_overflow. lia.
Qed.


(** * Further properties of the cache *)

(** ** The access counter *)

Lemma run_bblCount c ids :
  is_UINT64 (bblCount c) ->
  bblCount (run c ids) = (bblCount c + Z.of_nat (length ids)) mod 2 ^ 64.
Proof.
  intros Hc. induction ids as [|id ids IH] using rev_ind.
  - cbn. rewrite Z.add_0_r. symmetry. now apply Z.mod_small.
  - rewrite run_snoc, CountBbl_bblCount, IH, length_app. cbn [length].
    unfold incr64. rewrite Zplus_mod_idemp_l. f_equal. lia.
Qed.

(** X1: [bblCount] counts the calls of [CountBbl], modulo 2^64, whatever
    the identifiers are and whatever the cache holds. *)
Theorem bblCount_counts_calls (c : BBLCache) (ids : list BBL_ptr) :
  is_UINT64 (bblCount c) ->
  bblCount (run c ids) = (bblCount c + Z.of_nat (length ids)) mod 2 ^ 64 /\
  (bblCount c + Z.of_nat (length ids) < 2 ^ 64 ->
   bblCount (run c ids) = bblCount c + Z.of_nat (length ids)).
Proof.
  intros Hc. split; [now apply run_bblCount|].
  intros Hlt. rewrite run_bblCount by assumption.
  unfold is_UINT64 in Hc. apply Z.mod_small. lia.
Qed.

Lemma bblCount_counts_calls_witness :
  is_UINT64 (bblCount (mkBBLCache [30; 20] 2 4 3 1)) /\
  bblCount (run (mkBBLCache [30; 20] 2 4 3 1) [20; 40; 40]) = 7.
Proof.
  assert (Hc : is_UINT64 (bblCount (mkBBLCache [30; 20] 2 4 3 1))).
  { unfold is_UINT64. cbn. lia. }
  split; [exact Hc|].
  apply (bblCount_counts_calls (mkBBLCache [30; 20] 2 4 3 1) [20; 40; 40] Hc).
  cbn. lia.
Defined.

(** X2: while fewer than 2^64 calls are made on a fresh cache, no counter
    ever decreases: each call adds one to [bblCount] and at most one to
    [nHits] and to [nMisses]. *)
Theorem counters_never_decrease
  (max_size : Z) (ids pre post : list BBL_ptr) (id : BBL_ptr) :
  Z.of_nat (length ids) < 2 ^ 64 ->
  ids = pre ++ id :: post ->
  let s := run (BBLCache_new max_size) pre in
  let s' := CountBbl s id in
  bblCount s' = bblCount s + 1 /\
  0 <= nHits s <= nHits s' /\ nHits s' <= nHits s + 1 /\
  0 <= nMisses s <= nMisses s' /\ nMisses s' <= nMisses s + 1.
Proof.
  intros Hlen -> s s'. rewrite length_app in Hlen. cbn [length] in Hlen.
  destruct (counters_exact max_size pre) as (Hh & Hm & Hsum & Hcnt); [lia|].
  fold s in Hh, Hm, Hsum, Hcnt. subst s'.
  count_cases s id; rewrite !incr64_small by lia; lia.
Qed.

Lemma counters_never_decrease_witness :
  Z.of_nat (length [10; 20; 10; 30]) < 2 ^ 64 /\
  nHits (run (BBLCache_new 2) [10; 20]) <=
  nHits (CountBbl (run (BBLCache_new 2) [10; 20]) 10) /\
  nMisses (run (BBLCache_new 2) [10; 20]) <=
  nMisses (CountBbl (run (BBLCache_new 2) [10; 20]) 10).
Proof.
  assert (Hlen : Z.of_nat (length [10; 20; 10; 30]) < 2 ^ 64) by reflexivity.
  destruct (counters_never_decrease 2 [10; 20; 10; 30] [10; 20] [30] 10
              Hlen eq_refl) as (_ & Hh & _ & Hm & _).
  split; [exact Hlen|]. split; [apply Hh|apply Hm].
Defined.

(** ** The capacity *)

Lemma to_UINT32_nonneg knob : 0 <= knob < 2 ^ 31 -> to_UINT32 knob = knob.
Proof. intros H. unfold to_UINT32. apply Z.mod_small. lia. Qed.

(** X3: a non-negative [INT32] knob value is the capacity as it is, and no
    call ever changes the capacity: every cache of the run has
    [_max_size = knob]. *)
Theorem capacity_is_knob (knob : Z) (ids : list BBL_ptr) :
  0 <= knob < 2 ^ 31 ->
  _max_size (main_cache knob) = knob /\
  Forall (fun s => _max_size s = knob) (trace (main_cache knob) ids) /\
  _max_size (run (main_cache knob) ids) = knob.
Proof.
  intros Hk.
  assert (H0 : _max_size (main_cache knob) = knob).
  { cbn. now apply to_UINT32_nonneg. }
  split; [exact H0|]. split.
  - apply trace_invariant; [|exact H0].
    intros c bbl Hc. now rewrite CountBbl_max_size.
  - now rewrite run_max_size.
Qed.

Lemma capacity_is_knob_witness :
  0 <= 50 < 2 ^ 31 /\ _max_size (run (main_cache 50) [10; 20; 10]) = 50.
Proof.
  assert (Hk : 0 <= 50 < 2 ^ 31) by lia.
  split; [exact Hk|]. apply (capacity_is_knob 50 [10; 20; 10] Hk).
Defined.

(** ** What the deque can hold *)

Lemma In_CountBbl x c bbl :
  In x (blockCache (CountBbl c bbl)) -> In x (blockCache c) \/ x = bbl.
Proof.
  count_cases c bbl; [tauto|].
  intros Hx. apply In_evict_overflow in Hx.
  destruct Hx as [<-|Hx]; [now right|now left].
Qed.

(** X4: the deque only ever holds identifiers that were in it at the start
    or were recorded since. *)
Theorem entries_were_recorded (c : BBLCache) (ids : list BBL_ptr) (x : BBL_ptr) :
  In x (blockCache (run c ids)) -> In x (blockCache c) \/ In x ids.
Proof.
  induction ids as [|id ids IH] using rev_ind; [now left|].
  rewrite run_snoc. intros Hin. apply In_CountBbl in Hin.
  destruct Hin as [Hin| ->].
  - destruct (IH Hin) as [H|H]; [now left|right].
    apply in_or_app. now left.
  - right. apply in_or_app. right. now left.
Qed.

Lemma entries_were_recorded_witness :
  In 30 (blockCache (run (BBLCache_new 2) [10; 20; 10; 30])) /\
  (In 30 (blockCache (BBLCache_new 2)) \/ In 30 [10; 20; 10; 30]).
Proof.
  assert (Hin : In 30 (blockCache (run (BBLCache_new 2) [10; 20; 10; 30]))).
  { left. reflexivity. }
  split; [exact Hin|].
  exact (entries_were_recorded (BBLCache_new 2) [10; 20; 10; 30] 30 Hin).
Defined.

Lemma evict_overflow_keeps_front max_size bbl (d : Deque.t) :
  1 <= max_size ->
  exists rest, evict_overflow max_size (Deque.push_front bbl d) = bbl :: rest.
Proof.
  intros Hmax. unfold evict_overflow, Deque.push_front, Deque.pop_back.
  destruct (Z.gtb_spec (Deque.size (bbl :: d)) max_size) as [Hgt|Hle].
  - destruct d as [|x d'].
    + unfold Deque.size in Hgt. cbn in Hgt. lia.
    + now exists (removelast (x :: d')).
  - now exists d.
Qed.

(** X5: with a capacity of at least 1, an identifier is in the deque right
    after it is recorded, so recording it again at once is a hit that
    leaves the deque as it is. *)
Theorem repeat_is_hit (c : BBLCache) (id : BBL_ptr) :
  1 <= _max_size c ->
  let c1 := CountBbl c id in
  let c2 := CountBbl c1 id in
  In id (blockCache c1) /\
  blockCache c2 = blockCache c1 /\
  counts_hit c1 c2.
Proof.
  intros Hmax c1 c2.
  assert (Hin : In id (blockCache c1)).
  { subst c1. destruct (In_dec_ptr id (blockCache c)) as [Hhit|Hmiss].
    - now rewrite (CountBbl_hit c id Hhit).
    - rewrite (CountBbl_miss c id Hmiss). cbn [blockCache].
      destruct (evict_overflow_keeps_front (_max_size c) id (blockCache c) Hmax)
        as (rest & ->).
      now left. }
  split; [exact Hin|]. subst c2. rewrite (CountBbl_hit c1 id Hin).
  unfold counts_hit. cbn. now repeat split.
Qed.

Lemma repeat_is_hit_witness :
  1 <= _max_size (mkBBLCache [20; 10] 2 2 2 0) /\
  In 30 (blockCache (CountBbl (mkBBLCache [20; 10] 2 2 2 0) 30)) /\
  blockCache (CountBbl (CountBbl (mkBBLCache [20; 10] 2 2 2 0) 30) 30) =
  blockCache (CountBbl (mkBBLCache [20; 10] 2 2 2 0) 30).
Proof.
  assert (Hmax : 1 <= _max_size (mkBBLCache [20; 10] 2 2 2 0)) by (cbn; lia).
  destruct (repeat_is_hit (mkBBLCache [20; 10] 2 2 2 0) 30 Hmax)
    as (Hin & Hq & _).
  split; [exact Hmax|]. split; [exact Hin|exact Hq].
Defined.

(** ** Occupancy, call by call *)

Lemma evict_overflow_size max_size bbl (d : Deque.t) :
  Deque.size d <=
  Deque.size (evict_overflow max_size (Deque.push_front bbl d)) <=
  Deque.size d + 1.
Proof.
  unfold evict_overflow, Deque.push_front, Deque.pop_back, Deque.size.
  destruct (Z.of_nat (length (bbl :: d)) >? max_size).
  - rewrite removelast_firstn_len, length_firstn. cbn [length]. lia.
  - cbn [length]. lia.
Qed.

(** X6: a call never makes the deque shorter and adds at most one entry,
    whatever the cache holds; a deque that has reached the capacity stays
    at the capacity. *)
Theorem occupancy_never_shrinks (c : BBLCache) (bbl : BBL_ptr) :
  get_size c <= get_size (CountBbl c bbl) <= get_size c + 1 /\
  (get_size c = _max_size c -> get_size (CountBbl c bbl) = _max_size c).
Proof.
  unfold get_size. count_cases c bbl.
  - split; [lia|tauto].
  - split; [apply evict_overflow_size|].
    intros Hfull. unfold evict_overflow, Deque.push_front, Deque.pop_back.
    unfold Deque.size in *. cbn [length].
    destruct (Z.gtb_spec (Z.of_nat (S (length (blockCache c)))) (_max_size c));
      [|lia].
    rewrite removelast_firstn_len, length_firstn. cbn [length]. lia.
Qed.

Lemma occupancy_never_shrinks_witness :
  get_size (mkBBLCache [20; 10] 2 2 2 0) = _max_size (mkBBLCache [20; 10] 2 2 2 0) /\
  get_size (CountBbl (mkBBLCache [20; 10] 2 2 2 0) 30) = 2.
Proof.
  assert (Hfull : get_size (mkBBLCache [20; 10] 2 2 2 0) =
                  _max_size (mkBBLCache [20; 10] 2 2 2 0)) by reflexivity.
  split; [exact Hfull|].
  exact (proj2 (occupancy_never_shrinks (mkBBLCache [20; 10] 2 2 2 0) 30) Hfull).
Defined.

(** ** The misses of a run *)

Lemma missed_hit c id rest :
  In id (blockCache c) ->
  missed c (id :: rest) = missed (CountBbl c id) rest.
Proof. intros Hin. cbn [missed]. now rewrite scan_present. Qed.

Lemma missed_miss c id rest :
  ~ In id (blockCache c) ->
  missed c (id :: rest) = id :: missed (CountBbl c id) rest.
Proof. intros Hn. cbn [missed]. now rewrite scan_absent. Qed.

Lemma missed_snoc_hit c ids id :
  In id (blockCache (run c ids)) -> missed c (ids ++ [id]) = missed c ids.
Proof.
  revert c. induction ids as [|x ids IH]; intros c Hin.
  - cbn [app]. now rewrite missed_hit.
  - change (run c (x :: ids)) with (run (CountBbl c x) ids) in Hin.
    cbn [app]. destruct (In_dec_ptr x (blockCache c)) as [Hx|Hx].
    + rewrite !(missed_hit c x) by assumption. now apply IH.
    + rewrite !(missed_miss c x) by assumption. f_equal. now apply IH.
Qed.

Lemma missed_snoc_miss c ids id :
  ~ In id (blockCache (run c ids)) ->
  missed c (ids ++ [id]) = missed c ids ++ [id].
Proof.
  revert c. induction ids as [|x ids IH]; intros c Hn.
  - cbn [app]. now rewrite missed_miss.
  - change (run c (x :: ids)) with (run (CountBbl c x) ids) in Hn.
    cbn [app]. destruct (In_dec_ptr x (blockCache c)) as [Hx|Hx].
    + rewrite !(missed_hit c x) by assumption. now apply IH.
    + rewrite !(missed_miss c x) by assumption. cbn [app]. f_equal.
      now apply IH.
Qed.

Lemma missed_length c ids : (length (missed c ids) <= length ids)%nat.
Proof.
  revert c. induction ids as [|x ids IH]; intros c; [reflexivity|].
  destruct (In_dec_ptr x (blockCache c)) as [Hx|Hx].
  - rewrite missed_hit by assumption. cbn [length].
    specialize (IH (CountBbl c x)). lia.
  - rewrite missed_miss by assumption. cbn [length].
    specialize (IH (CountBbl c x)). lia.
Qed.

(** The deque after a run: the misses, newest first, then the old entries,
    cut at the capacity. *)
Lemma run_fifo c ids :
  fits c ->
  blockCache (run c ids) =
  firstn (Z.to_nat (_max_size c)) (rev (missed c ids) ++ blockCache c).
Proof.
  intros [Hpos Hfit]. unfold get_size, Deque.size in Hfit.
  induction ids as [|id ids IH] using rev_ind.
  - cbn. symmetry. apply firstn_all2. lia.
  - rewrite run_snoc.
    destruct (In_dec_ptr id (blockCache (run c ids))) as [Hhit|Hmiss].
    + rewrite (CountBbl_hit _ id Hhit), missed_snoc_hit by assumption.
      exact IH.
    + rewrite (CountBbl_miss _ id Hmiss), missed_snoc_miss by assumption.
      cbn [blockCache]. rewrite run_max_size, evict_overflow_firstn.
      * rewrite IH, rev_app_distr. cbn [rev app Deque.push_front].
        apply firstn_cons_firstn.
      * rewrite IH. unfold Deque.size, Deque.push_front. cbn [length].
        rewrite length_firstn. lia.
Qed.

(** X7: eviction is first in, first out over the misses alone.  From a
    cache whose deque fits its capacity, the deque after any run is the
    list of missed identifiers, newest first, followed by the entries it
    started with, cut at the capacity; from an empty cache it is the last
    [_max_size] misses, and its length is the smaller of the capacity and
    the number of misses. *)
Theorem fifo_over_misses (c : BBLCache) (ids : list BBL_ptr) :
  fits c ->
  blockCache (run c ids) =
    firstn (Z.to_nat (_max_size c)) (rev (missed c ids) ++ blockCache c) /\
  (blockCache c = [] ->
   blockCache (run c ids) =
     firstn (Z.to_nat (_max_size c)) (rev (missed c ids)) /\
   get_size (run c ids) =
     Z.min (_max_size c) (Z.of_nat (length (missed c ids)))).
Proof.
  intros Hfits. split; [now apply run_fifo|].
  intros Hempty. rewrite (run_fifo c ids Hfits), Hempty, app_nil_r.
  split; [reflexivity|].
  unfold get_size, Deque.size. rewrite (run_fifo c ids Hfits), Hempty, app_nil_r.
  rewrite length_firstn, length_rev. destruct Hfits as [Hpos _]. lia.
Qed.

Lemma fifo_over_misses_witness :
  fits (BBLCache_new 2) /\
  blockCache (run (BBLCache_new 2) [10; 20; 10; 30; 20; 40]) =
  firstn 2 (rev (missed (BBLCache_new 2) [10; 20; 10; 30; 20; 40])) /\
  get_size (run (BBLCache_new 2) [10; 20; 10; 30; 20; 40]) =
  Z.min 2 (Z.of_nat (length (missed (BBLCache_new 2) [10; 20; 10; 30; 20; 40]))).
Proof.
  assert (Hfits : fits (BBLCache_new 2)).
  { unfold fits, get_size, Deque.size. cbn. lia. }
  split; [exact Hfits|].
  apply (fifo_over_misses (BBLCache_new 2) [10; 20; 10; 30; 20; 40] Hfits).
  reflexivity.
Defined.

Lemma fits_new max_size : 0 <= max_size -> fits (BBLCache_new max_size).
Proof. intros H. unfold fits, get_size, Deque.size. cbn. lia. Qed.

Lemma run_outcomes max_size ids :
  Z.of_nat (length ids) < 2 ^ 64 ->
  let s := run (BBLCache_new max_size) ids in
  nMisses s = Z.of_nat (length (missed (BBLCache_new max_size) ids)) /\
  nHits s =
    Z.of_nat (length ids) -
    Z.of_nat (length (missed (BBLCache_new max_size) ids)).
Proof.
  induction ids as [|id ids IH] using rev_ind; intros Hlen s.
  - subst s. cbn. lia.
  - rewrite length_app in Hlen. cbn [length] in Hlen.
    destruct IH as [Hm Hh]; [lia|].
    pose proof (missed_length (BBLCache_new max_size) ids) as Hle.
    subst s. rewrite run_snoc, length_app. cbn [length].
    destruct (In_dec_ptr id (blockCache (run (BBLCache_new max_size) ids)))
      as [Hhit|Hmiss].
    + rewrite (CountBbl_hit _ id Hhit), missed_snoc_hit by assumption.
      cbn [nMisses nHits]. rewrite Hh, incr64_small by lia. lia.
    + rewrite (CountBbl_miss _ id Hmiss), missed_snoc_miss by assumption.
      cbn [nMisses nHits]. rewrite length_app. cbn [length].
      rewrite Hm, incr64_small by lia. lia.
Qed.

(** X8: on a fresh cache and while fewer than 2^64 calls are made,
    [nMisses] is the number of calls that missed and [nHits] the number of
    the other calls. *)
Theorem counters_count_outcomes (max_size : Z) (ids : list BBL_ptr) :
  Z.of_nat (length ids) < 2 ^ 64 ->
  let s := run (BBLCache_new max_size) ids in
  nMisses s = Z.of_nat (length (missed (BBLCache_new max_size) ids)) /\
  nHits s =
    Z.of_nat (length ids) -
    Z.of_nat (length (missed (BBLCache_new max_size) ids)).
Proof. exact (run_outcomes max_size ids). Qed.

Lemma counters_count_outcomes_witness :
  Z.of_nat (length [10; 20; 10; 30; 20; 40]) < 2 ^ 64 /\
  nMisses (run (BBLCache_new 2) [10; 20; 10; 30; 20; 40]) = 4 /\
  nHits (run (BBLCache_new 2) [10; 20; 10; 30; 20; 40]) = 2.
Proof.
  assert (Hlen : Z.of_nat (length [10; 20; 10; 30; 20; 40]) < 2 ^ 64)
    by reflexivity.
  split; [exact Hlen|].
  exact (counters_count_outcomes 2 [10; 20; 10; 30; 20; 40] Hlen).
Defined.

(** ** The counters play no part in what is cached *)

Lemma same_entries_refl c : same_entries c c.
Proof. now split. Qed.

Lemma same_entries_trans c1 c2 c3 :
  same_entries c1 c2 -> same_entries c2 c3 -> same_entries c1 c3.
Proof. intros [H1 H2] [H3 H4]. split; congruence. Qed.

Lemma same_entries_step c1 c2 bbl :
  same_entries c1 c2 -> same_entries (CountBbl c1 bbl) (CountBbl c2 bbl).
Proof.
  intros [Hq Hm]. unfold same_entries.
  destruct (In_dec_ptr bbl (blockCache c1)) as [Hin|Hn].
  - rewrite (CountBbl_hit c1 bbl Hin).
    rewrite Hq in Hin. rewrite (CountBbl_hit c2 bbl Hin). cbn. now split.
  - rewrite (CountBbl_miss c1 bbl Hn).
    rewrite Hq in Hn. rewrite (CountBbl_miss c2 bbl Hn). cbn.
    now rewrite Hq, Hm.
Qed.

Lemma same_entries_hit c bbl :
  In bbl (blockCache c) -> same_entries c (CountBbl c bbl).
Proof. intros Hin. rewrite (CountBbl_hit c bbl Hin). now split. Qed.

Lemma same_entries_run c1 c2 ids :
  same_entries c1 c2 -> same_entries (run c1 ids) (run c2 ids).
Proof.
  revert c1 c2. induction ids as [|id ids IH]; intros c1 c2 Hs; [exact Hs|].
  change (same_entries (run (CountBbl c1 id) ids) (run (CountBbl c2 id) ids)).
  apply IH. now apply same_entries_step.
Qed.

Lemma same_entries_missed c1 c2 ids :
  same_entries c1 c2 -> missed c1 ids = missed c2 ids.
Proof.
  revert c1 c2. induction ids as [|id ids IH]; intros c1 c2 Hs; [reflexivity|].
  pose proof (same_entries_step c1 c2 id Hs) as Hs'. destruct Hs as [Hq Hm].
  destruct (In_dec_ptr id (blockCache c1)) as [Hin|Hn].
  - rewrite (missed_hit c1) by assumption. rewrite Hq in Hin.
    rewrite (missed_hit c2) by assumption. now apply IH.
  - rewrite (missed_miss c1) by assumption. rewrite Hq in Hn.
    rewrite (missed_miss c2) by assumption. f_equal. now apply IH.
Qed.

(** X9: which calls hit, which miss and what the deque holds depend on the
    deque and the capacity only: two caches that agree on these go through
    the same misses and end with the same deque, whatever their counters
    are (wrapped or not). *)
Theorem counters_do_not_matter (c1 c2 : BBLCache) (ids : list BBL_ptr) :
  blockCache c1 = blockCache c2 ->
  _max_size c1 = _max_size c2 ->
  blockCache (run c1 ids) = blockCache (run c2 ids) /\
  missed c1 ids = missed c2 ids.
Proof.
  intros Hq Hm. assert (Hs : same_entries c1 c2) by now split.
  split.
  - now destruct (same_entries_run c1 c2 ids Hs).
  - now apply same_entries_missed.
Qed.

Lemma counters_do_not_matter_witness :
  blockCache (mkBBLCache [20; 10] 2 2 2 0) =
  blockCache (mkBBLCache [20; 10] 2 0 18446744073709551615 7) /\
  blockCache (run (mkBBLCache [20; 10] 2 2 2 0) [10; 30; 20]) =
  blockCache (run (mkBBLCache [20; 10] 2 0 18446744073709551615 7) [10; 30; 20]).
Proof.
  split; [reflexivity|].
  apply (counters_do_not_matter
           (mkBBLCache [20; 10] 2 2 2 0)
           (mkBBLCache [20; 10] 2 0 18446744073709551615 7)
           [10; 30; 20]); reflexivity.
Defined.

Lemma erase_hits c ids :
  same_entries (run c (missed c ids)) (run c ids) /\
  missed c (missed c ids) = missed c ids.
Proof.
  revert c. induction ids as [|id ids IH]; intros c.
  - split; [apply same_entries_refl|reflexivity].
  - destruct (IH (CountBbl c id)) as [IHs IHm].
    change (run c (id :: ids)) with (run (CountBbl c id) ids).
    destruct (In_dec_ptr id (blockCache c)) as [Hin|Hn].
    + rewrite (missed_hit c id ids Hin).
      pose proof (same_entries_hit c id Hin) as Hs. split.
      * eapply same_entries_trans; [|exact IHs].
        now apply same_entries_run.
      * rewrite (same_entries_missed c (CountBbl c id) _ Hs). exact IHm.
    + rewrite (missed_miss c id ids Hn). split.
      * exact IHs.
      * rewrite (missed_miss c id _ Hn). now f_equal.
Qed.

(** X10: hits leave no trace in the deque.  Replaying only the calls that
    missed gives the same deque as the whole run, and in the replay every
    call misses again. *)
Theorem hits_can_be_erased (c : BBLCache) (ids : list BBL_ptr) :
  blockCache (run c (missed c ids)) = blockCache (run c ids) /\
  missed c (missed c ids) = missed c ids.
Proof.
  destruct (erase_hits c ids) as [[Hq _] Hm]. now split.
Qed.

(** ** How long an entry stays *)

Lemma In_firstn_index (x : BBL_ptr) (d : Deque.t) k :
  In x (firstn k d) -> exists j, (j < k)%nat /\ nth_error d j = Some x.
Proof.
  intros Hin. apply In_nth_error in Hin. destruct Hin as [j Hj].
  rewrite nth_error_firstn in Hj.
  destruct (Nat.ltb_spec j k); [|discriminate]. now exists j.
Qed.

(** X11: each miss moves every entry one place toward the back.  From a
    cache whose deque fits its capacity, the entry at position [i] is at
    position [i] plus the number of misses as long as that is below the
    capacity; after that it is gone, and the identifier can only be in the
    deque because a later call missed on it. *)
Theorem entry_ages_with_misses
  (c : BBLCache) (ids : list BBL_ptr) (i : nat) (x : BBL_ptr) :
  fits c ->
  nth_error (blockCache c) i = Some x ->
  let k := length (missed c ids) in
  (Z.of_nat (k + i) < _max_size c ->
   nth_error (blockCache (run c ids)) (k + i) = Some x) /\
  (NoDup (blockCache c) ->
   _max_size c <= Z.of_nat (k + i) ->
   In x (blockCache (run c ids)) -> In x (missed c ids)).
Proof.
  intros Hfits Hi k. rewrite (run_fifo c ids Hfits). split.
  - intros Hlt. rewrite nth_error_firstn.
    destruct (Nat.ltb_spec (k + i) (Z.to_nat (_max_size c))); [|lia].
    rewrite nth_error_app2 by (rewrite length_rev; fold k; lia).
    rewrite length_rev. fold k.
    replace (k + i - k)%nat with i by lia. exact Hi.
  - intros Hnd Hge Hin.
    apply In_firstn_index in Hin. destruct Hin as (j & Hj & Hnth).
    rewrite nth_error_app in Hnth. rewrite length_rev in Hnth. fold k in Hnth.
    destruct (Nat.ltb_spec j k) as [Hjk|Hjk].
    + apply nth_error_In in Hnth. now apply in_rev.
    + exfalso.
      assert (Hlen : (i < length (blockCache c))%nat).
      { apply nth_error_Some. congruence. }
      assert (Heq : i = (j - k)%nat).
      { apply (proj1 (NoDup_nth_error (blockCache c)) Hnd); [exact Hlen|].
        congruence. }
      lia.
Qed.

Lemma entry_ages_with_misses_witness :
  fits (mkBBLCache [20; 10] 3 2 2 0) /\
  nth_error (blockCache (mkBBLCache [20; 10] 3 2 2 0)) 0 = Some 20 /\
  nth_error (blockCache (run (mkBBLCache [20; 10] 3 2 2 0) [10; 30; 20])) 1 =
  Some 20.
Proof.
  assert (Hfits : fits (mkBBLCache [20; 10] 3 2 2 0)).
  { unfold fits, get_size, Deque.size. cbn. lia. }
  assert (Hi : nth_error (blockCache (mkBBLCache [20; 10] 3 2 2 0)) 0 = Some 20)
    by reflexivity.
  split; [exact Hfits|]. split; [exact Hi|].
  apply (entry_ages_with_misses
           (mkBBLCache [20; 10] 3 2 2 0) [10; 30; 20] 0%nat 20 Hfits Hi).
  reflexivity.
Defined.

(** ** The report at exit *)

(** X12: the report of a run.  For a non-negative [INT32] knob and fewer
    than 2^64 executed blocks, [Fini] writes, in this order, the number of
    blocks executed, the hits, the misses and the size of the cache; hits
    and misses add up to the blocks, and the size is the smaller of the
    knob and the misses. *)
Theorem Fini_report (knob : Z) (ids : list BBL_ptr) :
  0 <= knob < 2 ^ 31 ->
  Z.of_nat (length ids) < 2 ^ 64 ->
  exists blocks hits misses size,
    report_numbers (Fini (run (main_cache knob) ids)) =
      [blocks; hits; misses; size] /\
    blocks = Z.of_nat (length ids) /\
    0 <= hits /\ 0 <= misses /\ hits + misses = blocks /\
    size = Z.min knob misses.
Proof.
  intros Hk Hlen. unfold main_cache. rewrite to_UINT32_nonneg by assumption.
  set (s := run (BBLCache_new knob) ids).
  exists (bblCount s), (nHits s), (nMisses s), (get_size s).
  split; [reflexivity|].
  destruct (counters_exact knob ids Hlen) as (Hh & Hm & Hsum & Hcnt).
  destruct (run_outcomes knob ids Hlen) as (Hmiss & _).
  fold s in Hh, Hm, Hsum, Hcnt, Hmiss.
  repeat split; try lia.
  unfold get_size, Deque.size. subst s.
  rewrite run_fifo by (apply fits_new; lia).
  cbn [blockCache _max_size BBLCache_new].
  rewrite app_nil_r, length_firstn, length_rev, Hmiss. lia.
Qed.

Lemma Fini_report_witness :
  0 <= 2 < 2 ^ 31 /\
  Z.of_nat (length [10; 20; 10; 30; 20; 40]) < 2 ^ 64 /\
  exists blocks hits misses size,
    report_numbers (Fini (run (main_cache 2) [10; 20; 10; 30; 20; 40])) =
      [blocks; hits; misses; size] /\
    blocks = Z.of_nat (length [10; 20; 10; 30; 20; 40]) /\
    0 <= hits /\ 0 <= misses /\ hits + misses = blocks /\
    size = Z.min 2 misses.
Proof.
  assert (Hk : 0 <= 2 < 2 ^ 31) by lia.
  assert (Hlen : Z.of_nat (length [10; 20; 10; 30; 20; 40]) < 2 ^ 64)
    by reflexivity.
  split; [exact Hk|]. split; [exact Hlen|].
  exact (Fini_report 2 [10; 20; 10; 30; 20; 40] Hk Hlen).
Defined.

(** ** Cold misses and working sets *)

Lemma first_occurrence_missed c ids x :
  ~ In x (blockCache c) -> In x ids -> In x (missed c ids).
Proof.
  revert c. induction ids as [|id ids IH]; intros c Hn Hin; [contradiction|].
  destruct (Z.eq_dec x id) as [->|Hne].
  - rewrite missed_miss by assumption. now left.
  - assert (Hrest : In x ids) by (destruct Hin; congruence).
    assert (Hn' : ~ In x (blockCache (CountBbl c id))).
    { intros H. apply In_CountBbl in H. tauto. }
    specialize (IH (CountBbl c id) Hn' Hrest).
    destruct (In_dec_ptr id (blockCache c)) as [Hid|Hid].
    + now rewrite missed_hit.
    + rewrite missed_miss by assumption. now right.
Qed.

(** X13: cold misses.  On a fresh cache of any capacity every identifier
    recorded misses at least once, so, while fewer than 2^64 calls are
    made, [nMisses] is at least the number of distinct identifiers and
    [nHits] at most the number of repeated ones. *)
Theorem cold_misses (max_size : Z) (ids : list BBL_ptr) :
  Z.of_nat (length ids) < 2 ^ 64 ->
  let s := run (BBLCache_new max_size) ids in
  (forall x, In x ids -> In x (missed (BBLCache_new max_size) ids)) /\
  Z.of_nat (length (nodup Z.eq_dec ids)) <= nMisses s /\
  nHits s <= Z.of_nat (length ids) - Z.of_nat (length (nodup Z.eq_dec ids)).
Proof.
  intros Hlen s.
  assert (Hcold : forall x, In x ids -> In x (missed (BBLCache_new max_size) ids)).
  { intros x Hx. apply first_occurrence_missed; [cbn; tauto|exact Hx]. }
  destruct (run_outcomes max_size ids Hlen) as [Hm Hh]. fold s in Hm, Hh.
  assert (Hle : (length (nodup Z.eq_dec ids) <=
                 length (missed (BBLCache_new max_size) ids))%nat).
  { apply NoDup_incl_length; [apply NoDup_nodup|].
    intros x Hx. apply Hcold. now apply nodup_In in Hx. }
  split; [exact Hcold|]. lia.
Qed.

Lemma cold_misses_witness :
  Z.of_nat (length [10; 20; 10; 30; 20; 40]) < 2 ^ 64 /\
  Z.of_nat (length (nodup Z.eq_dec [10; 20; 10; 30; 20; 40])) <=
  nMisses (run (BBLCache_new 1) [10; 20; 10; 30; 20; 40]).
Proof.
  assert (Hlen : Z.of_nat (length [10; 20; 10; 30; 20; 40]) < 2 ^ 64)
    by reflexivity.
  split; [exact Hlen|].
  apply (cold_misses 1 [10; 20; 10; 30; 20; 40] Hlen).
Defined.

(** A run whose identifiers all come from a set no larger than the
    capacity never evicts. *)
Lemma run_working_set max_size all pre :
  max_size < 2 ^ 64 ->
  Z.of_nat (length (nodup Z.eq_dec all)) <= max_size ->
  incl pre all ->
  let s := run (BBLCache_new max_size) pre in
  NoDup (blockCache s) /\
  (forall x, In x (blockCache s) <-> In x pre) /\
  nMisses s = Z.of_nat (length (blockCache s)).
Proof.
  intros Hmax Hws. induction pre as [|id pre IH] using rev_ind; intros Hincl s.
  - subst s. cbn. repeat split; try tauto. constructor.
  - assert (Hpre : incl pre all).
    { intros x Hx. apply Hincl, in_or_app. now left. }
    assert (Hid : In id all).
    { apply Hincl, in_or_app. right. now left. }
    destruct (IH Hpre) as (Hnd & Hin & Hm).
    subst s. rewrite run_snoc.
    set (s := run (BBLCache_new max_size) pre) in *.
    assert (Hs : _max_size s = max_size) by apply run_max_size.
    destruct (In_dec_ptr id (blockCache s)) as [Hhit|Hmiss].
    + rewrite (CountBbl_hit s id Hhit). cbn [blockCache nMisses].
      repeat split; try assumption.
      * intros Hx. apply in_or_app. left. now apply Hin.
      * intros Hx. apply in_app_or in Hx. destruct Hx as [Hx|[<-|[]]];
          [now apply Hin|exact Hhit].
    + assert (Hnd' : NoDup (id :: blockCache s)) by now constructor.
      assert (Hlen : (length (id :: blockCache s) <=
                      length (nodup Z.eq_dec all))%nat).
      { apply NoDup_incl_length; [exact Hnd'|].
        intros x [<-|Hx]; apply nodup_In; [exact Hid|].
        apply Hpre. now apply Hin. }
      cbn [length] in Hlen.
      assert (HlenZ : Z.of_nat (length (blockCache s)) + 1 <= max_size).
      { unfold BBL_ptr, Deque.t in *. lia. }
      clear Hlen.
      rewrite (CountBbl_miss s id Hmiss). cbn [blockCache nMisses].
      rewrite Hs, evict_overflow_fits
        by (unfold Deque.size, Deque.push_front; cbn [length]; lia).
      unfold Deque.push_front. cbn [length].
      repeat split.
      * exact Hnd'.
      * intros [<-|Hx]; apply in_or_app; [right; now left|left; now apply Hin].
      * intros Hx. apply in_app_or in Hx. destruct Hx as [Hx|[<-|[]]];
          [right; now apply Hin|now left].
      * rewrite Hm, incr64_small by lia. lia.
Qed.

(** X14: when the capacity is at least the number of distinct identifiers
    of a run on a fresh cache, nothing is ever evicted: every identifier
    recorded is in the deque at the end, the deque holds nothing else, and
    [nMisses] and the size are the number of distinct identifiers. *)
Theorem working_set_fits (max_size : Z) (ids : list BBL_ptr) :
  max_size < 2 ^ 64 ->
  Z.of_nat (length (nodup Z.eq_dec ids)) <= max_size ->
  let s := run (BBLCache_new max_size) ids in
  (forall x, In x (blockCache s) <-> In x ids) /\
  nMisses s = Z.of_nat (length (nodup Z.eq_dec ids)) /\
  get_size s = Z.of_nat (length (nodup Z.eq_dec ids)).
Proof.
  intros Hmax Hws s.
  destruct (run_working_set max_size ids ids Hmax Hws (incl_refl ids))
    as (Hnd & Hin & Hm).
  fold s in Hnd, Hin, Hm.
  assert (Hlen : length (blockCache s) = length (nodup Z.eq_dec ids)).
  { apply Nat.le_antisymm.
    - apply NoDup_incl_length; [exact Hnd|].
      intros x Hx. apply nodup_In. now apply Hin.
    - apply NoDup_incl_length; [apply NoDup_nodup|].
      intros x Hx. apply Hin. now apply nodup_In in Hx. }
  split; [exact Hin|].
  unfold get_size, Deque.size. rewrite Hm, Hlen. now split.
Qed.

Lemma working_set_fits_witness :
  2 < 2 ^ 64 /\
  Z.of_nat (length (nodup Z.eq_dec [10; 20; 10; 20; 20; 10])) <= 2 /\
  nMisses (run (BBLCache_new 2) [10; 20; 10; 20; 20; 10]) = 2 /\
  get_size (run (BBLCache_new 2) [10; 20; 10; 20; 20; 10]) = 2.
Proof.
  assert (Hmax : 2 < 2 ^ 64) by reflexivity.
  assert (Hws : Z.of_nat (length (nodup Z.eq_dec [10; 20; 10; 20; 20; 10])) <= 2).
  { vm_compute. discriminate. }
  split; [exact Hmax|]. split; [exact Hws|].
  apply (working_set_fits 2 [10; 20; 10; 20; 20; 10] Hmax Hws).
Defined.
